(* Verification of the queue model of src/app/page.tsx (MultiFormatConverter,
   first component of the file, lines 1-443): file intake, the bulk
   conversion loop handleConvertAll, removal, download wrapping and the
   output file name derivation.

   The React component is modelled as a state record (the useState hooks),
   a heap of FileItem objects (the loop mutates the very objects that the
   React state array also holds), and the suspended continuation of the
   async handler handleConvertAll at its single await point.  The browser
   decides the outcome of each conversion (convertImage's promise), so a
   settlement event carries that outcome. *)

From Stdlib Require Import String Ascii List Bool Arith ZArith Lia.
Import ListNotations.
Open Scope string_scope.

(** * Data model (page.tsx lines 13-37) *)

Inductive Status := pending | converting | completed | error.

Definition status_eqb (a b : Status) : bool :=
  match a, b with
  | pending, pending | converting, converting
  | completed, completed | error, error => true
  | _, _ => false
  end.

Inductive OutputFormat := webp | avif | jpeg | png.

(** The string value of the [OutputFormat] union type. *)
Definition format_value (f : OutputFormat) : string :=
  match f with webp => "webp" | avif => "avif" | jpeg => "jpeg" | png => "png" end.

(** A browser [File]: its name and its declared media type. *)
Record File := mkFile { name : string; type : string }.

(** A [Blob]: media type and bytes. *)
Record Blob := mkBlob { blob_type : string; blob_bytes : list nat }.

Record FileItem := mkFileItem {
  id : nat;
  file : File;
  status : Status;
  result : option Blob;
  err : option string
}.

Definition set_status (s : Status) (fi : FileItem) : FileItem :=
  mkFileItem (id fi) (file fi) s (result fi) (err fi).
Definition set_result (b : Blob) (fi : FileItem) : FileItem :=
  mkFileItem (id fi) (file fi) (status fi) (Some b) (err fi).
Definition set_error (m : string) (fi : FileItem) : FileItem :=
  mkFileItem (id fi) (file fi) (status fi) (result fi) (Some m).

(** The history panel items (the [dummyHistoryItems] constant, lines 23-30). *)
Record HistoryItem := mkHistoryItem { h_name : string; h_size : string; h_type : string }.

Definition dummyHistoryItems : list HistoryItem := [
  mkHistoryItem "Illustr_3485.jpg" "3.5 Mb" "jpg";
  mkHistoryItem "img2045.png" "2.1 Mb" "png";
  mkHistoryItem "icon24.svg" "258 Kb" "svg";
  mkHistoryItem "article.doc" "459 Kb" "doc";
  mkHistoryItem "present19.pdf" "3.5 Mb" "pdf";
  mkHistoryItem "photo1.jpg" "7.8 Mb" "jpg"
].

(** * getOutputFileName (lines 39-42) *)

(** JavaScript [String.prototype.split] with a one-character separator. *)
Fixpoint split_on (sep : ascii) (s : string) : list string :=
  match s with
  | EmptyString => [EmptyString]
  | String c rest =>
      if Ascii.eqb c sep then EmptyString :: split_on sep rest
      else match split_on sep rest with
           | p :: ps => String c p :: ps
           | [] => [String c EmptyString]
           end
  end.

(** [toLowerCase] on ASCII characters. *)
Definition lower_ascii (c : ascii) : ascii :=
  let n := nat_of_ascii c in
  if (Nat.leb 65 n && Nat.leb n 90)%bool then ascii_of_nat (n + 32)%nat else c.

Fixpoint toLowerCase (s : string) : string :=
  match s with
  | EmptyString => EmptyString
  | String c rest => String (lower_ascii c) (toLowerCase rest)
  end.

(** Array index [0] of a split result ([undefined] never occurs: split
    always returns at least one piece). *)
Definition index0 (l : list string) : string :=
  match l with p :: _ => p | [] => EmptyString end.

Definition getOutputFileName (originalName : string) (outputFormat : OutputFormat) : string :=
  let nameWithoutExtension := index0 (split_on "."%char originalName) in
  nameWithoutExtension ++ "." ++ toLowerCase (format_value outputFormat).

(** * Component state (the useState hooks, lines 45-49) and the object heap *)

(** FileItem objects live in a heap addressed by [nat]; the React state
    array [selectedFiles] and the loop's copy [updatedFiles] hold
    references into it.  Objects are never freed (JavaScript garbage
    collection is not observable here). *)
Record St := mkSt {
  heap : list FileItem;
  selectedFiles : list nat;
  outputFormat : OutputFormat;
  isConverting : bool;
  error_state : option string
}.

Definition lookup (s : St) (l : nat) : option FileItem := nth_error (heap s) l.

Fixpoint upd {A} (n : nat) (f : A -> A) (l : list A) : list A :=
  match l, n with
  | [], _ => []
  | x :: xs, O => f x :: xs
  | x :: xs, S m => x :: upd m f xs
  end.

Definition upd_heap (l : nat) (f : FileItem -> FileItem) (s : St) : St :=
  mkSt (upd l f (heap s)) (selectedFiles s) (outputFormat s) (isConverting s) (error_state s).
Definition setSelectedFiles (fs : list nat) (s : St) : St :=
  mkSt (heap s) fs (outputFormat s) (isConverting s) (error_state s).
Definition setIsConverting (b : bool) (s : St) : St :=
  mkSt (heap s) (selectedFiles s) (outputFormat s) b (error_state s).
Definition setError (e : option string) (s : St) : St :=
  mkSt (heap s) (selectedFiles s) (outputFormat s) (isConverting s) e.
Definition setOutputFormat (f : OutputFormat) (s : St) : St :=
  mkSt (heap s) (selectedFiles s) f (isConverting s) (error_state s).

(** * handleFilesSelect (lines 102-121) *)

Definition rejection_message (f : File) : string :=
  name f ++ " is not a valid image file".

(** The forEach loop: the accepted FileItems (fresh objects, allocated from
    heap address [next] on; the random id is modelled as the fresh address)
    and the arguments of the [setError] calls, in order. *)
Fixpoint collect (files : list File) (next : nat) : list FileItem * list (option string) :=
  match files with
  | [] => ([], [])
  | f :: fs =>
      if String.prefix "image/" (type f) then
        let '(v, e) := collect fs (S next) in (mkFileItem next f pending None None :: v, e)
      else
        let '(v, e) := collect fs next in (v, Some (rejection_message f) :: e)
  end.

(** Every [setError] argument issued by one call, ending with the final
    [setError(null)]. *)
Definition handleFilesSelect_errors (files : list File) (s : St) : list (option string) :=
  snd (collect files (length (heap s))) ++ [None].

(** React batches the updates of one handler: the error slot ends with the
    last value written. *)
Definition handleFilesSelect (files : list File) (s : St) : St :=
  let validFiles := fst (collect files (length (heap s))) in
  mkSt (heap s ++ validFiles)
       (selectedFiles s ++ seq (length (heap s)) (length validFiles))
       (outputFormat s) (isConverting s)
       (last (handleFilesSelect_errors files s) None).

(** * removeFile (lines 154-156) *)

Definition removeFile (i : nat) (s : St) : St :=
  setSelectedFiles
    (filter (fun l => match lookup s l with
                      | Some fi => negb (Nat.eqb (id fi) i)
                      | None => true
                      end) (selectedFiles s)) s.

(** * handleConvertAll (lines 158-183) *)

(** How the promise of [convertImage] settles: with the encoded blob, or
    with the message of the rejected [Error]. *)
Inductive Outcome := resolved (b : Blob) | rejected (msg : string).

(** The handler suspended at [await convertImage(...)]: the array
    [updatedFiles], the entries the for-of loop has still to visit, the
    entry being converted, and the [outputFormat] of the closure. *)
Record Pass := mkPass { snapshot : list nat; todo : list nat; cur : nat; pfmt : OutputFormat }.

(** lines 169-170 *)
Definition begin_item (snap : list nat) (l : nat) (s : St) : St :=
  setSelectedFiles snap (upd_heap l (set_status converting) s).

(** lines 173-179 *)
Definition apply_outcome (r : Outcome) (fi : FileItem) : FileItem :=
  match r with
  | resolved b => set_status completed (set_result b fi)
  | rejected m => set_status error (set_error m fi)
  end.

Definition settle_item (snap : list nat) (l : nat) (r : Outcome) (s : St) : St :=
  setSelectedFiles snap (upd_heap l (apply_outcome r) s).

Definition is_completed (fi : FileItem) : bool := status_eqb (status fi) completed.

(** The synchronous run of the for-of loop up to the next await (or to the
    end, line 182); it returns the new state, the suspended handler if any,
    and the [convertImage] calls made. *)
Fixpoint run_loop (snap : list nat) (fmt : OutputFormat) (todo : list nat) (s : St)
  : St * option Pass * list (nat * OutputFormat) :=
  match todo with
  | [] => (setIsConverting false s, None, [])
  | l :: rest =>
      match lookup s l with
      | Some fi =>
          if is_completed fi then run_loop snap fmt rest s
          else (begin_item snap l s, Some (mkPass snap rest l fmt), [(l, fmt)])
      | None => run_loop snap fmt rest s
      end
  end.

(** The whole program: component state, the suspended bulk handler (if
    any) and the log of [convertImage] invocations (entry, format). *)
Record Conf := mkConf { st : St; pass : option Pass; calls : list (nat * OutputFormat) }.

Definition handleConvertAll (c : Conf) : Conf :=
  let s := st c in
  if isConverting s then c
  else
    let s1 := setError None (setIsConverting true s) in
    let updatedFiles := selectedFiles s in
    let '(s2, p, cs) := run_loop updatedFiles (outputFormat s) updatedFiles s1 in
    mkConf s2 p (calls c ++ cs).

(** Resumption of the suspended handler when its conversion settles. *)
Definition resume (r : Outcome) (c : Conf) : Conf :=
  match pass c with
  | None => c
  | Some p =>
      let s1 := settle_item (snapshot p) (cur p) r (st c) in
      let '(s2, p', cs) := run_loop (snapshot p) (pfmt p) (todo p) s1 in
      mkConf s2 p' (calls c ++ cs)
  end.

(** The events: user actions calling the handlers, and the browser settling
    the pending conversion. *)
Inductive Event :=
  | SelectFiles (fs : list File)
  | RemoveFile (i : nat)
  | ConvertAll
  | SetFormat (f : OutputFormat)
  | Settle (r : Outcome).

Definition on_state (f : St -> St) (c : Conf) : Conf := mkConf (f (st c)) (pass c) (calls c).

Definition step (e : Event) (c : Conf) : Conf :=
  match e with
  | SelectFiles fs => on_state (handleFilesSelect fs) c
  | RemoveFile i => on_state (removeFile i) c
  | ConvertAll => handleConvertAll c
  | SetFormat f => on_state (setOutputFormat f) c
  | Settle r => resume r c
  end.

Definition run_events (es : list Event) (c : Conf) : Conf := fold_left (fun c e => step e c) es c.

Definition init : Conf := mkConf (mkSt [] [] webp false None) None [].

Inductive reachable : Conf -> Prop :=
  | reach_init : reachable init
  | reach_step e c : reachable c -> reachable (step e c).

(** The history the page shows: the constant passed to RightPanel (line 440). *)
Definition history (c : Conf) : list HistoryItem := dummyHistoryItems.

(** * A bulk pass with no intervening user action *)

(** [conv l f]: how the conversion of entry [l] to format [f] settles. *)
Definition Converter := nat -> OutputFormat -> Outcome.

(** The browser settling each pending conversion in turn. *)
Fixpoint drive (conv : Converter) (fuel : nat) (c : Conf) : Conf :=
  match fuel with
  | O => c
  | S n =>
      match pass c with
      | None => c
      | Some p => drive conv n (resume (conv (cur p) (pfmt p)) c)
      end
  end.

Definition convertAll_pass (conv : Converter) (c : Conf) : Conf :=
  drive conv (length (selectedFiles (st c))) (handleConvertAll c).

(** The for-of loop of lines 165-180 read as one sequential computation:
    state and [convertImage] calls. *)
Fixpoint loop (conv : Converter) (snap : list nat) (fmt : OutputFormat)
  (todo : list nat) (s : St) (cs : list (nat * OutputFormat)) : St * list (nat * OutputFormat) :=
  match todo with
  | [] => (s, cs)
  | l :: rest =>
      match lookup s l with
      | Some fi =>
          if is_completed fi then loop conv snap fmt rest s cs
          else loop conv snap fmt rest
                 (settle_item snap l (conv l fmt) (begin_item snap l s)) (cs ++ [(l, fmt)])
      | None => loop conv snap fmt rest s cs
      end
  end.

(** * handleDownload (lines 185-205) and handleDownloadAll (lines 207-242) *)

(** The file handed to the browser download: name and blob. *)
Definition handleDownload (s : St) (fi : FileItem) : option (string * Blob) :=
  if negb (status_eqb (status fi) completed) then None
  else match result fi with
       | None => None
       | Some r =>
           Some (getOutputFileName (name (file fi)) (outputFormat s),
                 mkBlob ("image/" ++ format_value (outputFormat s)) (blob_bytes r))
       end.

Definition completedFiles (s : St) : list FileItem :=
  filter is_completed
    (fold_right (fun l acc => match lookup s l with Some fi => fi :: acc | None => acc end)
                [] (selectedFiles s)).

(** The entries of the zip archive built when more than one file is completed. *)
Definition zip_entries (s : St) : list (string * Blob) :=
  fold_right (fun fi acc =>
                match result fi with
                | Some r => (getOutputFileName (name (file fi)) (outputFormat s),
                             mkBlob ("image/" ++ format_value (outputFormat s)) (blob_bytes r)) :: acc
                | None => acc
                end) [] (completedFiles s).

(** The downloads triggered by handleDownloadAll. *)
Definition handleDownloadAll (s : St) : list (string * Blob) :=
  match completedFiles s with
  | [] => []
  | [fi] => match handleDownload s fi with Some d => [d] | None => [] end
  | _ => zip_entries s
  end.

(** * Spec-side notions *)

(** The canonical media type of each output format (spec, section 6). *)
Definition canonical_media_type (f : OutputFormat) : string :=
  match f with
  | webp => "image/webp" | avif => "image/avif" | jpeg => "image/jpeg" | png => "image/png"
  end.

(** The spec's basename: the name truncated at its first dot. *)
Fixpoint before_first_dot (s : string) : string :=
  match s with
  | EmptyString => EmptyString
  | String c rest => if Ascii.eqb c "."%char then EmptyString else String c (before_first_dot rest)
  end.

(** The spec's invariant on one entry. *)
Definition entry_ok (fi : FileItem) : Prop :=
  ~ (result fi <> None /\ err fi <> None) /\
  (result fi <> None <-> status fi = completed) /\
  (err fi <> None <-> status fi = error).

(** * Sample inputs *)

Definition img (n : string) : File := mkFile n "image/jpeg".
Definition txt (n : string) : File := mkFile n "text/plain".
Definition blob1 : Blob := mkBlob "image/png" [1; 2; 3].
Definition blob_webp : Blob := mkBlob "image/webp" [1; 2; 3].

(** The spec's image-like test: the declared media type starts with "image/". *)
Definition is_image (f : File) : bool := String.prefix "image/" (type f).

(** Components of the sequential pass. *)

(** What one visit of the loop makes of entry [l]. *)
Definition item_outcome (conv : Converter) (fmt : OutputFormat) (l : nat) (fi : FileItem) : FileItem :=
  if is_completed fi then fi else apply_outcome (conv l fmt) (set_status converting fi).

(** The entries of [todo] that the loop converts. *)
Definition to_convert (s : St) (todo : list nat) : list nat :=
  filter (fun l => match lookup s l with Some fi => negb (is_completed fi) | None => false end) todo.

(** handleConvertAll run to its end with the loop read sequentially. *)
Definition convertAll_seq (conv : Converter) (c : Conf) : Conf :=
  let s := st c in
  if isConverting s then c
  else
    let s1 := setError None (setIsConverting true s) in
    let '(s2, cs) := loop conv (selectedFiles s) (outputFormat s) (selectedFiles s) s1 (calls c) in
    mkConf (setIsConverting false s2) None cs.

(** Well-formedness of reachable configurations: the queue and the
    suspended handler's array reference distinct allocated objects. *)
Definition refs_ok (s : St) (ls : list nat) : Prop :=
  NoDup ls /\ Forall (fun l => l < length (heap s)) ls.

Definition wf (c : Conf) : Prop :=
  refs_ok (st c) (selectedFiles (st c)) /\
  match pass c with
  | None => isConverting (st c) = false
  | Some p => isConverting (st c) = true /\ refs_ok (st c) (snapshot p) /\
              incl (cur p :: todo p) (snapshot p)
  end.

(** Invariants of reachable configurations used beyond the claims. *)
Definition entry_inv (c : Conf) : Prop :=
  (forall l fi, lookup (st c) l = Some fi ->
     id fi = l /\
     (result fi <> None <-> status fi = completed) /\
     (status fi = converting <-> exists p, pass c = Some p /\ cur p = l)) /\
  (forall p, pass c = Some p -> exists pre, snapshot p = (pre ++ cur p :: todo p)%list) /\
  error_state (st c) = None.

(** Number of occurrences of a character. *)
Fixpoint count_char (a : ascii) (s : string) : nat :=
  match s with
  | EmptyString => 0
  | String c rest => (if Ascii.eqb c a then 1 else 0) + count_char a rest
  end.

(** * ToastProvider (src/unnamed/part_001, lines 100-214) *)

Inductive ToastType := success | error_toast | warning | info.

(** [Omit<Toast, "id">] *)
Record ToastInput := mkToastInput {
  ti_title : option string; ti_description : option string;
  ti_type : option ToastType; ti_duration : option nat
}.

Record Toast := mkToast {
  t_id : string; t_title : option string; t_description : option string;
  t_type : option ToastType; t_duration : option nat
}.

(** [addToast]: the random id is an argument. *)
Definition addToast (t : ToastInput) (i : string) (prev : list Toast) : list Toast :=
  prev ++ [mkToast i (ti_title t) (ti_description t) (ti_type t) (ti_duration t)].

Definition removeToast (i : string) (prev : list Toast) : list Toast :=
  filter (fun t => negb (String.eqb (t_id t) i)) prev.

(** * SpaceShooter (src/src/components/ui/game/space-shooter.tsx) *)

Open Scope Z_scope.

(** Player coordinates stay integral: the initial position is
    (220/2 - 20/2, 400 - 50), the speed is 8 and moves are by 8 or 8 * 1.5,
    clamped by Math.max/Math.min; doubles represent these exactly, so they
    are modelled as [Z]. *)
Record Player := mkPlayer {
  px : Z; py : Z; pwidth : Z; pheight : Z; pspeed : Z; plives : Z; pscore : Z
}.

Record Bullet := mkBullet { bx : Z; by_ : Z; bwidth : Z; bheight : Z; bspeed : Z; bactive : bool }.

Definition canvas_width : Z := 220.
Definition canvas_height : Z := 400.

(** The player after the effect's initialisation (lines 35-43, 60-61). *)
Definition initial_player : Player :=
  mkPlayer (canvas_width / 2 - 20 / 2) (canvas_height - 50) 20 30 8 3 0.

Inductive Key := ArrowLeft | ArrowRight | Space | OtherKey.

(** [const moveDistance = e.shiftKey ? player.speed * 1.5 : player.speed] *)
Definition moveDistance (shift : bool) (p : Player) : Z :=
  if shift then pspeed p * 3 / 2 else pspeed p.

Definition set_px (x : Z) (p : Player) : Player :=
  mkPlayer x (py p) (pwidth p) (pheight p) (pspeed p) (plives p) (pscore p).

(** [shoot] (lines 79-89) *)
Definition shoot (p : Player) (bullets : list Bullet) : list Bullet :=
  bullets ++ [mkBullet (px p + pwidth p / 2 - 2) (py p) 4 10 7 true].

(** [handleKeyDown] (lines 200-215) on the player and the bullet list. *)
Definition handleKeyDown (k : Key) (shift : bool) (pb : Player * list Bullet) : Player * list Bullet :=
  let '(p, bs) := pb in
  let d := moveDistance shift p in
  match k with
  | ArrowLeft => (set_px (Z.max 0 (px p - d)) p, bs)
  | ArrowRight => (set_px (Z.min (canvas_width - pwidth p) (px p + d)) p, bs)
  | Space => (p, shoot p bs)
  | OtherKey => (p, bs)
  end.

Definition keys_run (ks : list (Key * bool)) (pb : Player * list Bullet) : Player * list Bullet :=
  fold_left (fun acc k => handleKeyDown (fst k) (snd k) acc) ks pb.

(** [checkCollisions] (lines 91-130).  Enemy abscissae come from
    Math.random, so coordinates are kept abstract: a number type with the
    addition and the comparison the code uses. *)
Section Collisions.
Variable R : Type.
Variable add : R -> R -> R.
Variable ltb : R -> R -> bool.

Record Obj := mkObj { ox : R; oy : R; ow : R; oh : R; oactive : bool }.

Definition deactivate (o : Obj) : Obj := mkObj (ox o) (oy o) (ow o) (oh o) false.

(** The axis-aligned overlap test of lines 100-103 and 117-120. *)
Definition overlaps (a e : Obj) : bool :=
  ltb (ox a) (add (ox e) (ow e)) && ltb (ox e) (add (ox a) (ow a)) &&
  ltb (oy a) (add (oy e) (oh e)) && ltb (oy e) (add (oy a) (oh a)).

(** The inner [enemies.forEach] for one active bullet: the bullet's
    [active] flag is not rechecked, so one bullet may hit several
    enemies. *)
Fixpoint hit_enemies (b : Obj) (es : list Obj) (score : Z) : Obj * list Obj * Z :=
  match es with
  | [] => (b, [], score)
  | e :: es' =>
      if negb (oactive e) then
        let '(b', es'', sc) := hit_enemies b es' score in (b', e :: es'', sc)
      else if overlaps b e then
        let '(b', es'', sc) := hit_enemies (deactivate b) es' (score + 10) in
        (b', deactivate e :: es'', sc)
      else
        let '(b', es'', sc) := hit_enemies b es' score in (b', e :: es'', sc)
  end.

(** The outer [bullets.forEach]. *)
Fixpoint bullet_phase (bs es : list Obj) (score : Z) : list Obj * list Obj * Z :=
  match bs with
  | [] => ([], es, score)
  | b :: bs' =>
      if negb (oactive b) then
        let '(bs'', es', sc) := bullet_phase bs' es score in (b :: bs'', es', sc)
      else
        let '(b', es1, sc1) := hit_enemies b es score in
        let '(bs'', es2, sc2) := bullet_phase bs' es1 sc1 in (b' :: bs'', es2, sc2)
  end.

(** The player-enemy [forEach]: lives and the [gameOver] flag. *)
Fixpoint player_phase (pl : Obj) (es : list Obj) (lives : Z) (over : bool) : list Obj * Z * bool :=
  match es with
  | [] => ([], lives, over)
  | e :: es' =>
      if negb (oactive e) then
        let '(es'', l, o) := player_phase pl es' lives over in (e :: es'', l, o)
      else if overlaps pl e then
        let '(es'', l, o) := player_phase pl es' (lives - 1) (over || (lives - 1 <=? 0)) in
        (deactivate e :: es'', l, o)
      else
        let '(es'', l, o) := player_phase pl es' lives over in (e :: es'', l, o)
  end.

(** bullets, enemies, score, lives, gameOver *)
Definition checkCollisions (pl : Obj) (bs es : list Obj) (score lives : Z) (over : bool)
  : list Obj * list Obj * Z * Z * bool :=
  let '(bs1, es1, sc) := bullet_phase bs es score in
  let '(es2, l, o) := player_phase pl es1 lives over in
  (bs1, es2, sc, l, o).

Definition count_active (os : list Obj) : Z := Z.of_nat (length (filter oactive os)).
End Collisions.

Close Scope Z_scope.

(** * General lemmas *)

Lemma split_on_nonempty (c : ascii) (s : string) : split_on c s <> [].
Proof.
  induction s as [|a s IH]; simpl; [discriminate|].
  destruct (Ascii.eqb a c); [discriminate|].
  destruct (split_on c s); discriminate.
Qed.

Lemma index0_split_dot (s : string) :
  index0 (split_on "."%char s) = before_first_dot s.
Proof.
  induction s as [|a s IH]; simpl; [reflexivity|].
  destruct (Ascii.eqb a "."%char); [reflexivity|].
  destruct (split_on "."%char s) as [|p ps] eqn:E.
  - exfalso; exact (split_on_nonempty _ _ E).
  - simpl in *; now rewrite IH.
Qed.

Lemma toLowerCase_format_value (f : OutputFormat) :
  toLowerCase (format_value f) = format_value f.
Proof. destruct f; reflexivity. Qed.

Lemma nth_error_upd {A} (n m : nat) (f : A -> A) (xs : list A) :
  nth_error (upd n f xs) m =
  if Nat.eqb n m then option_map f (nth_error xs m) else nth_error xs m.
Proof.
  revert m xs; induction n as [|n IH]; intros m xs; destruct xs as [|x xs];
    destruct m as [|m]; simpl; try reflexivity.
  - destruct (Nat.eqb n m); reflexivity.
  - apply IH.
Qed.

Lemma length_upd {A} (n : nat) (f : A -> A) (xs : list A) : length (upd n f xs) = length xs.
Proof. revert xs; induction n; intros [|x xs]; simpl; auto. Qed.

Lemma reachable_run_events (es : list Event) (c : Conf) :
  reachable c -> reachable (run_events es c).
Proof.
  revert c; induction es as [|e es IH]; intros c Hc; simpl; [exact Hc|].
  apply IH; now constructor.
Qed.

(** * Theorems *)

Example sample_name : getOutputFileName "photo.v2.jpg" png = "photo.png".
Proof. reflexivity. Qed.

Example sample_run :
  let c := run_events [SelectFiles [img "a.jpg"; txt "b.txt"; img "c.png"]; ConvertAll;
                       Settle (resolved blob1); Settle (rejected "Failed to load image")] init in
  map status (heap (st c)) = [completed; error] /\ selectedFiles (st c) = [0; 1] /\
  isConverting (st c) = false /\ calls c = [(0, webp); (1, webp)].
Proof. vm_compute. repeat split. Qed.


(** C8: the output file name is the original name truncated at its first
    dot, then a dot and the format's (lower-case) extension; "photo.v2.jpg"
    converted to PNG gives exactly "photo.png". *)
Theorem getOutputFileName_first_dot (originalName : string) (f : OutputFormat) :
  getOutputFileName originalName f = before_first_dot originalName ++ "." ++ format_value f /\
  getOutputFileName "photo.v2.jpg" png = "photo.png".
Proof.
  split; [|reflexivity].
  unfold getOutputFileName. now rewrite index0_split_dot, toLowerCase_format_value.
Qed.

(** The run that retries an entry whose first conversion failed. *)
Definition retry_events : list Event :=
  [SelectFiles [img "a.jpg"]; ConvertAll; Settle (rejected "Failed to load image");
   ConvertAll; Settle (resolved blob1)].

(** C2 (code defect): after a failed conversion is retried by a second
    convertAll and succeeds, the reachable queue holds a Completed entry that
    still carries the old error message, so [result] and [error] are both
    present and [error] is present without the Errored status. *)
Theorem retry_keeps_stale_error :
  let c := run_events retry_events init in
  reachable c /\ selectedFiles (st c) = [0] /\
  lookup (st c) 0 = Some (mkFileItem 0 (img "a.jpg") completed (Some blob1)
                                     (Some "Failed to load image")) /\
  exists fi, lookup (st c) 0 = Some fi /\ ~ entry_ok fi.
Proof.
  intro c. split; [exact (reachable_run_events retry_events init reach_init)|].
  split; [vm_compute; reflexivity|]. split; [vm_compute; reflexivity|].
  eexists; split; [vm_compute; reflexivity|].
  unfold entry_ok; simpl. intros [H _]. apply H. split; discriminate.
Qed.

(** C3 (code defect): while entry "a.jpg" is converting, the user removes
    the still pending "b.jpg" and adds "c.jpg"; when a's conversion settles
    the handler writes back the array it copied when the pass began: the
    removed b is in the queue again (and is converted next) and the added c
    is gone, although removeFile and handleFilesSelect themselves update the
    queue through [prev => ...] updaters. *)
Theorem interleaved_updates_lost :
  let c := run_events [SelectFiles [img "a.jpg"; img "b.jpg"]; ConvertAll;
                       RemoveFile 1; SelectFiles [img "c.jpg"];
                       Settle (resolved blob1)] init in
  reachable c /\ In 1 (selectedFiles (st c)) /\ ~ In 2 (selectedFiles (st c)) /\
  calls c = [(0, webp); (1, webp)].
Proof.
  intro c. split; [exact (reachable_run_events _ init reach_init)|].
  vm_compute. split; [right; left; reflexivity|]. split; [|reflexivity].
  intros [H|[H|[]]]; discriminate.
Qed.

(** The run converting "a.jpg" to WebP (the encoder returns WebP bytes)
    and then selecting PNG before the download. *)
Definition late_format_events : list Event :=
  [SelectFiles [img "a.jpg"]; ConvertAll; Settle (resolved blob_webp); SetFormat png].

(** C7 (code defect): the WebP bytes of that conversion are handed over as
    "a.png" in a blob typed "image/png", the format selected at download time,
    both by handleDownload and by handleDownloadAll, although the conversion's
    target format was WebP, whose canonical media type is "image/webp". *)
Theorem download_uses_current_format :
  let c := run_events late_format_events init in
  reachable c /\ calls c = [(0, webp)] /\
  (exists fi, lookup (st c) 0 = Some fi /\ result fi = Some blob_webp /\
     handleDownload (st c) fi = Some ("a.png", mkBlob "image/png" [1; 2; 3])) /\
  handleDownloadAll (st c) = [("a.png", mkBlob "image/png" [1; 2; 3])] /\
  canonical_media_type webp = "image/webp".
Proof.
  intro c. split; [exact (reachable_run_events _ init reach_init)|].
  split; [vm_compute; reflexivity|]. split; [|split; vm_compute; reflexivity].
  eexists; split; [vm_compute; reflexivity|]. split; vm_compute; reflexivity.
Qed.

(** The queue of the C1 counterexample: one image, converted successfully. *)
Definition one_success : Conf :=
  convertAll_pass (fun _ _ => resolved blob1)
                  (run_events [SelectFiles [img "a.jpg"]] init).

(** C1 counterexample: a convertAll pass over one entry with no failure
    leaves it Completed, but the history holds six records, not one: no
    record is created for the conversion. *)
Theorem no_history_record :
  map status (heap (st one_success)) = [completed] /\
  selectedFiles (st one_success) = [0] /\
  length (history one_success) = 6 /\
  history one_success = history (run_events [SelectFiles [img "a.jpg"]] init).
Proof. vm_compute. repeat split. Qed.


(** * The loop up to its next await *)

Open Scope list_scope.

Lemma run_loop_spec (snap : list nat) (fmt : OutputFormat) (ls : list nat) (s : St) :
  match run_loop snap fmt ls s with
  | (s2, None, cs) => s2 = setIsConverting false s /\ cs = []
  | (s2, Some p, cs) =>
      exists pre fi, ls = pre ++ cur p :: todo p /\ snapshot p = snap /\ pfmt p = fmt /\
        lookup s (cur p) = Some fi /\ is_completed fi = false /\
        s2 = begin_item snap (cur p) s /\ cs = [(cur p, fmt)]
  end.
Proof.
  induction ls as [|l rest IH]; simpl; [split; reflexivity|].
  destruct (lookup s l) as [fi|] eqn:El.
  - destruct (is_completed fi) eqn:Ec.
    + destruct (run_loop snap fmt rest s) as [[s2 [p|]] cs]; [|exact IH].
      destruct IH as (pre & fi' & H); exists (l :: pre), fi'; simpl; intuition congruence.
    + exists [], fi; simpl; intuition.
  - destruct (run_loop snap fmt rest s) as [[s2 [p|]] cs]; [|exact IH].
    destruct IH as (pre & fi' & H); exists (l :: pre), fi'; simpl; intuition congruence.
Qed.

Lemma heap_length_upd_heap l f s : length (heap (upd_heap l f s)) = length (heap s).
Proof. apply length_upd. Qed.

Lemma refs_ok_same_heap (s s' : St) ls :
  length (heap s') = length (heap s) -> refs_ok s ls -> refs_ok s' ls.
Proof.
  intros E [H1 H2]; split; [exact H1|].
  rewrite Forall_forall in *; intros x Hx; rewrite E; auto.
Qed.

Lemma Forall_lt_mono (ls : list nat) (n m : nat) :
  n <= m -> Forall (fun l => l < n) ls -> Forall (fun l => l < m) ls.
Proof. intros Hle H; rewrite Forall_forall in *; intros x Hx; specialize (H x Hx); lia. Qed.


Lemma refs_ok_grow (s s' : St) ls :
  length (heap s) <= length (heap s') -> refs_ok s ls -> refs_ok s' ls.
Proof. intros E [H1 H2]; split; [exact H1|]. eapply Forall_lt_mono; eauto. Qed.

Lemma refs_ok_incl (s : St) ls ls' :
  NoDup ls' -> incl ls' ls -> refs_ok s ls -> refs_ok s ls'.
Proof. intros Hn Hi [_ H]; split; [exact Hn|]. eapply incl_Forall; eauto. Qed.

Lemma wf_pass_grow (s s' : St) (p : option Pass) :
  length (heap s) <= length (heap s') -> isConverting s' = isConverting s ->
  match p with
  | None => isConverting s = false
  | Some p => isConverting s = true /\ refs_ok s (snapshot p) /\ incl (cur p :: todo p) (snapshot p)
  end ->
  match p with
  | None => isConverting s' = false
  | Some p => isConverting s' = true /\ refs_ok s' (snapshot p) /\ incl (cur p :: todo p) (snapshot p)
  end.
Proof.
  intros Hl Hc H; destruct p as [p|]; rewrite Hc; [|exact H].
  destruct H as (H1 & H2 & H3); split; [exact H1|split; [|exact H3]].
  eapply refs_ok_grow; eauto.
Qed.

(** After the loop has written the handler's array, the suspended handler
    (if any) is well formed. *)
Lemma wf_after_loop (snap : list nat) (fmt : OutputFormat) (ls : list nat) (s : St) cs0 :
  refs_ok s snap -> incl ls snap -> isConverting s = true ->
  wf (let '(s2, p, cs) := run_loop snap fmt ls (setSelectedFiles snap s) in mkConf s2 p (cs0 ++ cs)).
Proof.
  intros Hr Hi Hc.
  pose proof (run_loop_spec snap fmt ls (setSelectedFiles snap s)) as H.
  destruct (run_loop snap fmt ls (setSelectedFiles snap s)) as [[s2 [p|]] cs].
  - destruct H as (pre & fi & Hls & Hsn & _ & _ & _ & -> & _).
    assert (Hr' : forall ls', refs_ok s ls' -> refs_ok (begin_item snap (cur p) (setSelectedFiles snap s)) ls')
      by (intros ls' H'; eapply refs_ok_same_heap; [|exact H']; apply length_upd).
    unfold wf; simpl. split; [|split; [exact Hc|split]].
    + apply Hr', Hr.
    + rewrite Hsn; apply Hr', Hr.
    + rewrite Hsn. intros x Hx; apply Hi; rewrite Hls; apply in_or_app; right; exact Hx.
  - destruct H as [-> _]. unfold wf; simpl. split; [exact Hr|reflexivity].
Qed.

Lemma wf_step (e : Event) (c : Conf) : wf c -> wf (step e c).
Proof.
  destruct c as [s p cs]; intros [Hq Hp]; simpl in *.
  destruct e as [fs|i| |f|r]; simpl.
  - unfold on_state, wf, handleFilesSelect; simpl. set (v := fst (collect fs (length (heap s)))).
    assert (Hlen : length (heap s) <= length (heap s ++ v)) by (rewrite length_app; lia).
    split.
    + destruct Hq as [Hn Hf]. split.
      * apply NoDup_app; [exact Hn|apply seq_NoDup|].
        intros a Ha Hb. rewrite Forall_forall in Hf. specialize (Hf a Ha).
        apply in_seq in Hb. lia.
      * apply Forall_app; split; [eapply Forall_lt_mono; eauto|].
        rewrite Forall_forall; intros a Ha. apply in_seq in Ha. simpl. pose proof (length_app (heap s) v). lia.
    + exact (wf_pass_grow s (mkSt (heap s ++ v) _ _ _ _) p Hlen eq_refl Hp).
  - unfold on_state, wf, removeFile, setSelectedFiles; simpl. split.
    + destruct Hq as [Hn Hf]. split; [apply NoDup_filter; exact Hn|].
      rewrite Forall_forall in *; intros a Ha. apply filter_In in Ha. apply Hf, Ha.
    + exact (wf_pass_grow s _ p (le_n _) eq_refl Hp).
  - unfold handleConvertAll; simpl. destruct (isConverting s) eqn:Ec.
    + split; [exact Hq|]. simpl. rewrite Ec. exact Hp.
    + destruct p as [p|]; [destruct Hp as [Hp _]; congruence|].
      set (s1 := setError None (setIsConverting true s)).
      replace s1 with (setSelectedFiles (selectedFiles s) s1) by (destruct s; reflexivity).
      apply wf_after_loop; [| apply incl_refl | reflexivity].
      destruct Hq as [Hn Hf]; split; assumption.
  - unfold on_state, wf; simpl. split; [exact Hq|].
    exact (wf_pass_grow s _ p (le_n _) eq_refl Hp).
  - unfold resume; simpl. destruct p as [p|]; [|split; assumption].
    destruct Hp as (Hc & Hr & Hi).
    unfold settle_item. apply wf_after_loop.
    + eapply refs_ok_same_heap; [apply heap_length_upd_heap|exact Hr].
    + intros x Hx; apply Hi; right; exact Hx.
    + exact Hc.
Qed.

Lemma reachable_wf (c : Conf) : reachable c -> wf c.
Proof.
  induction 1 as [|e c _ IH].
  - split; [split; [constructor|constructor]|reflexivity].
  - apply wf_step, IH.
Qed.

Lemma lookup_upd_heap (l m : nat) (f : FileItem -> FileItem) (s : St) :
  lookup (upd_heap l f s) m = if Nat.eqb l m then option_map f (lookup s m) else lookup s m.
Proof. apply nth_error_upd. Qed.

Lemma resume_cases (r : Outcome) (c : Conf) (p : Pass) :
  pass c = Some p ->
  let s1 := settle_item (snapshot p) (cur p) r (st c) in
  (pass (resume r c) = None /\ st (resume r c) = setIsConverting false s1 /\ calls (resume r c) = calls c) \/
  (exists p' pre fi, pass (resume r c) = Some p' /\ todo p = pre ++ cur p' :: todo p' /\
     snapshot p' = snapshot p /\ pfmt p' = pfmt p /\ lookup s1 (cur p') = Some fi /\
     is_completed fi = false /\
     st (resume r c) = begin_item (snapshot p) (cur p') s1 /\
     calls (resume r c) = calls c ++ [(cur p', pfmt p)]).
Proof.
  intros Hp s1. unfold resume; rewrite Hp.
  pose proof (run_loop_spec (snapshot p) (pfmt p) (todo p) s1) as H. fold s1.
  destruct (run_loop (snapshot p) (pfmt p) (todo p) s1) as [[s2 [p'|]] cs].
  - destruct H as (pre & fi & H1 & H2 & H3 & H4 & H5 & H6 & H7).
    right; exists p', pre, fi; simpl; subst; intuition.
  - destruct H as [H1 H2]; left; simpl; subst; rewrite app_nil_r; intuition.
Qed.

Lemma drive_finishes (conv : Converter) (n : nat) (c : Conf) (p : Pass) :
  pass c = Some p -> length (todo p) < n ->
  pass (drive conv n c) = None /\ isConverting (st (drive conv n c)) = false.
Proof.
  revert c p; induction n as [|n IH]; intros c p Hp Hn; [lia|].
  simpl; rewrite Hp.
  destruct (resume_cases (conv (cur p) (pfmt p)) c p Hp) as [(H1 & H2 & _)|H].
  - destruct n; simpl; rewrite ?H1; split; try reflexivity; rewrite H2; reflexivity.
  - destruct H as (p' & pre & fi & H1 & H2 & _).
    apply (IH _ p' H1). rewrite H2, length_app in Hn; simpl in Hn; lia.
Qed.

(** C5: convertAll is single-flight.  In every reachable state the
    is-converting flag is set exactly while a bulk pass is suspended; calling
    handleConvertAll then changes nothing (no conversion, no entry touched);
    and whatever the outcome of each conversion, every failure included, the
    pass reaches the end of its array and clears the flag. *)
Theorem convertAll_single_flight (c : Conf) (Hc : reachable c) :
  (isConverting (st c) = true <-> pass c <> None) /\
  (pass c <> None -> step ConvertAll c = c) /\
  (forall (conv : Converter) (p : Pass), pass c = Some p ->
     pass (drive conv (S (length (todo p))) c) = None /\
     isConverting (st (drive conv (S (length (todo p))) c)) = false).
Proof.
  destruct (reachable_wf c Hc) as [_ Hw].
  assert (Hiff : isConverting (st c) = true <-> pass c <> None).
  { destruct (pass c) as [p|]; split; intros H.
    - discriminate. - apply Hw. - congruence. - congruence. }
  split; [exact Hiff|split].
  - intros Hp. simpl; unfold handleConvertAll. apply Hiff in Hp. now rewrite Hp.
  - intros conv p Hp. apply (drive_finishes conv _ c p Hp). lia.
Qed.

Lemma convertAll_single_flight_witness :
  reachable (run_events [SelectFiles [img "a.jpg"]; ConvertAll] init) /\
  pass (step ConvertAll (run_events [SelectFiles [img "a.jpg"]; ConvertAll] init)) <> None.
Proof.
  assert (H : reachable (run_events [SelectFiles [img "a.jpg"]; ConvertAll] init))
    by exact (reachable_run_events _ init reach_init).
  split; [exact H|].
  rewrite (proj1 (proj2 (convertAll_single_flight _ H))); vm_compute; discriminate.
Defined.

Lemma handleConvertAll_cases (c : Conf) :
  isConverting (st c) = false ->
  let s := st c in
  let s1 := setError None (setIsConverting true s) in
  (pass (handleConvertAll c) = None /\ st (handleConvertAll c) = setIsConverting false s1 /\
     calls (handleConvertAll c) = calls c) \/
  (exists p' pre fi, pass (handleConvertAll c) = Some p' /\
     selectedFiles s = pre ++ cur p' :: todo p' /\
     snapshot p' = selectedFiles s /\ pfmt p' = outputFormat s /\ lookup s1 (cur p') = Some fi /\
     is_completed fi = false /\
     st (handleConvertAll c) = begin_item (selectedFiles s) (cur p') s1 /\
     calls (handleConvertAll c) = calls c ++ [(cur p', outputFormat s)]).
Proof.
  intros Hf. unfold handleConvertAll; cbv zeta. rewrite Hf.
  set (s1 := setError None (setIsConverting true (st c))).
  pose proof (run_loop_spec (selectedFiles (st c)) (outputFormat (st c)) (selectedFiles (st c)) s1) as H.
  destruct (run_loop (selectedFiles (st c)) (outputFormat (st c)) (selectedFiles (st c)) s1)
    as [[s2 [p'|]] cs].
  - destruct H as (pre & fi & H1 & H2 & H3 & H4 & H5 & H6 & H7).
    right; exists p', pre, fi; simpl; subst; intuition.
  - destruct H as [H1 H2]; left; simpl; subst; rewrite app_nil_r; intuition.
Qed.

(** C10: every conversion of a bulk pass uses the output format selected
    when the pass began.  Starting a pass issues conversions only in the
    current format and records it in the suspended handler; while a pass is
    suspended, no event (format changes included) issues a conversion in
    another format or changes the format the handler will use next. *)
Theorem bulk_pass_format_fixed (c : Conf) (e : Event) (Hc : reachable c) :
  (pass c = None ->
     exists new, calls (step ConvertAll c) = calls c ++ new /\
       Forall (fun x => snd x = outputFormat (st c)) new /\
       (forall p', pass (step ConvertAll c) = Some p' -> pfmt p' = outputFormat (st c))) /\
  (forall p, pass c = Some p ->
     exists new, calls (step e c) = calls c ++ new /\
       Forall (fun x => snd x = pfmt p) new /\
       (forall p', pass (step e c) = Some p' -> pfmt p' = pfmt p)).
Proof.
  destruct (reachable_wf c Hc) as [_ Hw]. split.
  - intros Hp. rewrite Hp in Hw. simpl.
    destruct (handleConvertAll_cases c Hw) as [(H1 & _ & H3)|(p' & pre & fi & H1 & _ & _ & H4 & _ & _ & _ & H8)].
    + exists []; rewrite H3, app_nil_r; split; [reflexivity|split; [constructor|]].
      rewrite H1; discriminate.
    + exists [(cur p', outputFormat (st c))]; split; [exact H8|split; [repeat constructor|]].
      rewrite H1; intros p'' E; injection E as <-; exact H4.
  - intros p Hp. rewrite Hp in Hw. destruct Hw as [Hw _].
    destruct e as [fs|i| |f|r]; simpl.
    + exists []; rewrite app_nil_r; split; [reflexivity|split; [constructor|]].
      unfold on_state; simpl; rewrite Hp; intros p' E; injection E as <-; reflexivity.
    + exists []; rewrite app_nil_r; split; [reflexivity|split; [constructor|]].
      unfold on_state; simpl; rewrite Hp; intros p' E; injection E as <-; reflexivity.
    + unfold handleConvertAll; rewrite Hw.
      exists []; rewrite app_nil_r; split; [reflexivity|split; [constructor|]].
      rewrite Hp; intros p' E; injection E as <-; reflexivity.
    + exists []; rewrite app_nil_r; split; [reflexivity|split; [constructor|]].
      unfold on_state; simpl; rewrite Hp; intros p' E; injection E as <-; reflexivity.
    + destruct (resume_cases r c p Hp) as [(H1 & _ & H3)|(p' & pre & fi & H1 & _ & _ & H4 & _ & _ & _ & H8)].
      * exists []; rewrite H3, app_nil_r; split; [reflexivity|split; [constructor|]].
        rewrite H1; discriminate.
      * exists [(cur p', pfmt p)]; split; [exact H8|split; [repeat constructor|]].
        rewrite H1; intros p'' E; injection E as <-; exact H4.
Qed.

Lemma bulk_pass_format_fixed_witness :
  reachable (run_events [SelectFiles [img "a.jpg"; img "b.jpg"]; ConvertAll; SetFormat png] init) /\
  exists new,
    calls (step (Settle (resolved blob1))
             (run_events [SelectFiles [img "a.jpg"; img "b.jpg"]; ConvertAll; SetFormat png] init)) =
    [(0, webp)] ++ new /\ Forall (fun x => snd x = webp) new.
Proof.
  assert (H : reachable (run_events [SelectFiles [img "a.jpg"; img "b.jpg"]; ConvertAll; SetFormat png] init))
    by exact (reachable_run_events _ init reach_init).
  split; [exact H|].
  destruct (proj2 (bulk_pass_format_fixed _ (Settle (resolved blob1)) H)
              (mkPass [0; 1] [1] 0 webp) eq_refl) as (new & H1 & H2 & _).
  exists new; split; [exact H1|exact H2].
Defined.

Lemma settle_item_lookup (snap : list nat) (l m : nat) (r : Outcome) (s : St) :
  l <> m -> lookup (settle_item snap l r s) m = lookup s m.
Proof.
  intros Hne. unfold settle_item; simpl. unfold lookup; simpl.
  rewrite nth_error_upd. destruct (Nat.eqb_spec l m); [contradiction|reflexivity].
Qed.

Lemma begin_item_lookup (snap : list nat) (l m : nat) (s : St) :
  l <> m -> lookup (begin_item snap l s) m = lookup s m.
Proof.
  intros Hne. unfold begin_item; simpl. unfold lookup; simpl.
  rewrite nth_error_upd. destruct (Nat.eqb_spec l m); [contradiction|reflexivity].
Qed.

(** * The bulk pass read sequentially *)

Lemma drive_loop (conv : Converter) (snap : list nat) (fmt : OutputFormat) (ls : list nat)
  (s : St) (cs0 : list (nat * OutputFormat)) (fuel : nat) :
  length ls <= fuel ->
  drive conv fuel (let '(s2, p, cs) := run_loop snap fmt ls s in mkConf s2 p (cs0 ++ cs)) =
  let '(s', cs') := loop conv snap fmt ls s cs0 in mkConf (setIsConverting false s') None cs'.
Proof.
  revert s cs0 fuel; induction ls as [|l rest IH]; intros s cs0 fuel Hf; simpl.
  - rewrite app_nil_r; destruct fuel; reflexivity.
  - simpl in Hf. destruct (lookup s l) as [fi|].
    + destruct (is_completed fi); [apply IH; lia|].
      destruct fuel as [|n]; [lia|]. simpl. unfold resume; simpl.
      rewrite <- (IH _ _ n) by lia.
      destruct (run_loop snap fmt rest (settle_item snap l (conv l fmt) (begin_item snap l s)))
        as [[s2 p] cs]; reflexivity.
    + apply IH; lia.
Qed.

Lemma convertAll_pass_seq (conv : Converter) (c : Conf) :
  isConverting (st c) = false ->
  convertAll_pass conv c = convertAll_seq conv c.
Proof.
  intros Hf. unfold convertAll_pass, convertAll_seq, handleConvertAll; cbv zeta. rewrite Hf.
  replace (length (selectedFiles (st c)))
    with (length (selectedFiles (setError None (setIsConverting true (st c))))) by reflexivity.
  pose proof (drive_loop conv (selectedFiles (st c)) (outputFormat (st c)) (selectedFiles (st c))
                (setError None (setIsConverting true (st c))) (calls c)
                (length (selectedFiles (st c))) (le_n _)) as H.
  destruct (run_loop (selectedFiles (st c)) (outputFormat (st c)) (selectedFiles (st c))
              (setError None (setIsConverting true (st c)))) as [[s2 p] cs].
  exact H.
Qed.

Lemma settle_item_lookup_same (snap : list nat) (l : nat) (r : Outcome) (s : St) :
  lookup (settle_item snap l r s) l = option_map (apply_outcome r) (lookup s l).
Proof. unfold settle_item, lookup; simpl. rewrite nth_error_upd, Nat.eqb_refl. reflexivity. Qed.

Lemma begin_item_lookup_same (snap : list nat) (l : nat) (s : St) :
  lookup (begin_item snap l s) l = option_map (set_status converting) (lookup s l).
Proof. unfold begin_item, lookup; simpl. rewrite nth_error_upd, Nat.eqb_refl. reflexivity. Qed.

Lemma loop_lookup (conv : Converter) (snap : list nat) (fmt : OutputFormat) (ls : list nat) :
  NoDup ls -> forall s cs m,
  (In m ls -> lookup (fst (loop conv snap fmt ls s cs)) m = option_map (item_outcome conv fmt m) (lookup s m)) /\
  (~ In m ls -> lookup (fst (loop conv snap fmt ls s cs)) m = lookup s m).
Proof.
  induction 1 as [|l rest Hnot Hnd IH]; intros s cs m; simpl; [split; [intros []|reflexivity]|].
  destruct (lookup s l) as [fi|] eqn:El.
  - destruct (is_completed fi) eqn:Ec.
    + destruct (IH s cs m) as [H1 H2]. split.
      * intros [<-|Hm]; [|exact (H1 Hm)]. rewrite (H2 Hnot), El. simpl.
        unfold item_outcome; rewrite Ec; reflexivity.
      * intros Hm; apply H2; tauto.
    + set (s' := settle_item snap l (conv l fmt) (begin_item snap l s)).
      destruct (IH s' (cs ++ [(l, fmt)]) m) as [H1 H2].
      assert (Hs' : forall m', l <> m' -> lookup s' m' = lookup s m').
      { intros m' Hne; unfold s'. rewrite settle_item_lookup, begin_item_lookup; auto. }
      split.
      * intros [<-|Hm].
        -- rewrite (H2 Hnot). unfold s'. rewrite settle_item_lookup_same, begin_item_lookup_same, El.
           simpl. unfold item_outcome; rewrite Ec; reflexivity.
        -- rewrite (H1 Hm), Hs'; [reflexivity|]. intros E; subst; contradiction.
      * intros Hm. rewrite H2 by tauto. apply Hs'. tauto.
  - destruct (IH s cs m) as [H1 H2]. split.
    + intros [<-|Hm]; [|exact (H1 Hm)]. rewrite (H2 Hnot), El; reflexivity.
    + intros Hm; apply H2; tauto.
Qed.

Lemma to_convert_ext (s s' : St) (ls : list nat) :
  (forall m, In m ls -> lookup s' m = lookup s m) -> to_convert s' ls = to_convert s ls.
Proof.
  induction ls as [|l rest IH]; intros H; simpl; [reflexivity|].
  rewrite (H l (or_introl eq_refl)), IH; [reflexivity|]. intros m Hm; apply H; right; exact Hm.
Qed.

Lemma loop_calls (conv : Converter) (snap : list nat) (fmt : OutputFormat) (ls : list nat) :
  NoDup ls -> forall s cs,
  snd (loop conv snap fmt ls s cs) = cs ++ map (fun l => (l, fmt)) (to_convert s ls).
Proof.
  induction 1 as [|l rest Hnot Hnd IH]; intros s cs; simpl; [now rewrite app_nil_r|].
  destruct (lookup s l) as [fi|] eqn:El.
  - destruct (is_completed fi) eqn:Ec; simpl; [apply IH|].
    rewrite IH, <- app_assoc. simpl. do 3 f_equal.
    apply to_convert_ext. intros m Hm.
    rewrite settle_item_lookup, begin_item_lookup; [reflexivity| |];
      intros E; subst; contradiction.
  - apply IH.
Qed.

Lemma loop_selectedFiles (conv : Converter) (snap : list nat) (fmt : OutputFormat) (ls : list nat) :
  forall s cs, selectedFiles s = snap -> selectedFiles (fst (loop conv snap fmt ls s cs)) = snap.
Proof.
  induction ls as [|l rest IH]; intros s cs Hs; simpl; [exact Hs|].
  destruct (lookup s l) as [fi|]; [destruct (is_completed fi)|]; apply IH; auto.
Qed.

Lemma to_convert_start (c : Conf) (ls : list nat) :
  to_convert (setError None (setIsConverting true (st c))) ls = to_convert (st c) ls.
Proof. apply to_convert_ext; reflexivity. Qed.

(** What a bulk pass started in an idle reachable state with no intervening
    user action does to each entry and to the conversion log. *)
Lemma convertAll_pass_entries (conv : Converter) (c : Conf) :
  reachable c -> pass c = None ->
  let c' := convertAll_pass conv c in
  let fmt := outputFormat (st c) in
  let snap := selectedFiles (st c) in
  pass c' = None /\ isConverting (st c') = false /\ selectedFiles (st c') = snap /\
  calls c' = calls c ++ map (fun l => (l, fmt)) (to_convert (st c) snap) /\
  (forall m, In m snap -> lookup (st c') m = option_map (item_outcome conv fmt m) (lookup (st c) m)) /\
  (forall m, ~ In m snap -> lookup (st c') m = lookup (st c) m).
Proof.
  intros Hc Hidle. destruct (reachable_wf c Hc) as [[Hnd _] Hw]. rewrite Hidle in Hw.
  cbv zeta. rewrite (convertAll_pass_seq conv c Hw). unfold convertAll_seq. rewrite Hw.
  set (s1 := setError None (setIsConverting true (st c))).
  pose proof (loop_lookup conv (selectedFiles (st c)) (outputFormat (st c)) _ Hnd s1 (calls c)) as HL.
  pose proof (loop_calls conv (selectedFiles (st c)) (outputFormat (st c)) _ Hnd s1 (calls c)) as HC.
  pose proof (loop_selectedFiles conv (selectedFiles (st c)) (outputFormat (st c))
                (selectedFiles (st c)) s1 (calls c) eq_refl) as HS.
  destruct (loop conv (selectedFiles (st c)) (outputFormat (st c)) (selectedFiles (st c)) s1 (calls c))
    as [s2 cs] eqn:E.
  simpl in *. split; [reflexivity|split; [reflexivity|split; [exact HS|split]]].
  - rewrite HC. unfold s1. now rewrite to_convert_start.
  - split; intros m Hm; [apply (proj1 (HL m) Hm)|apply (proj2 (HL m) Hm)].
Qed.

(** C1 (as the code behaves): after a convertAll pass over the N entries of
    the queue in which no conversion fails, the queue lists the same N
    entries, every one Completed, converted in queue order; no history
    record is created: the history shown is still the constant list of six
    placeholder items. *)
Theorem convertAll_all_success (conv : Converter) (c : Conf)
  (Hc : reachable c) (Hidle : pass c = None)
  (Hok : forall l f, exists b, conv l f = resolved b) :
  let c' := convertAll_pass conv c in
  selectedFiles (st c') = selectedFiles (st c) /\
  (forall l, In l (selectedFiles (st c')) ->
     exists fi, lookup (st c') l = Some fi /\ status fi = completed) /\
  calls c' = calls c ++ map (fun l => (l, outputFormat (st c))) (to_convert (st c) (selectedFiles (st c))) /\
  history c' = history c /\ length (history c') = 6.
Proof.
  destruct (convertAll_pass_entries conv c Hc Hidle) as (_ & _ & HS & HC & HL & _).
  destruct (reachable_wf c Hc) as [[_ Hv] _].
  cbv zeta. split; [exact HS|split; [|split; [exact HC|split; reflexivity]]].
  intros l Hl. rewrite HS in Hl. rewrite (HL l Hl).
  rewrite Forall_forall in Hv. specialize (Hv l Hl).
  destruct (lookup (st c) l) as [fi|] eqn:El.
  - exists (item_outcome conv (outputFormat (st c)) l fi); split; [reflexivity|].
    unfold item_outcome. destruct (is_completed fi) eqn:Ec.
    + unfold is_completed in Ec. destruct (status fi); try discriminate; reflexivity.
    + destruct (Hok l (outputFormat (st c))) as [b Hb]. rewrite Hb. reflexivity.
  - exfalso. apply nth_error_None in El. unfold lookup in *. lia.
Qed.

Lemma convertAll_all_success_witness :
  reachable (run_events [SelectFiles [img "a.jpg"; img "b.jpg"]] init) /\
  selectedFiles (st (convertAll_pass (fun _ _ => resolved blob1)
                       (run_events [SelectFiles [img "a.jpg"; img "b.jpg"]] init))) = [0; 1].
Proof.
  assert (H : reachable (run_events [SelectFiles [img "a.jpg"; img "b.jpg"]] init))
    by exact (reachable_run_events _ init reach_init).
  split; [exact H|].
  refine (proj1 (convertAll_all_success (fun _ _ => resolved blob1) _ H eq_refl _)).
  intros l f; exists blob1; reflexivity.
Defined.

(** C6: failure isolation.  If the conversion of the entry at position k of
    the queue fails, every entry before it ends exactly as its own
    conversion (or skip) left it, every non-completed entry after it is
    still converted and ends as its own conversion left it, entry k itself
    ends Errored with the error's message, and the pass runs to its end. *)
Theorem convertAll_failure_isolation (conv : Converter) (c : Conf) (k lk : nat) (m : string)
  (Hc : reachable c) (Hidle : pass c = None)
  (Hk : nth_error (selectedFiles (st c)) k = Some lk)
  (Hfail : conv lk (outputFormat (st c)) = rejected m) :
  let c' := convertAll_pass conv c in
  let fmt := outputFormat (st c) in
  (forall j lj, j < k -> nth_error (selectedFiles (st c)) j = Some lj ->
     lookup (st c') lj = option_map (item_outcome conv fmt lj) (lookup (st c) lj)) /\
  (forall j lj fi, k < j -> nth_error (selectedFiles (st c)) j = Some lj ->
     lookup (st c) lj = Some fi -> is_completed fi = false ->
     In (lj, fmt) (calls c') /\
     lookup (st c') lj = Some (apply_outcome (conv lj fmt) (set_status converting fi))) /\
  (forall fi, lookup (st c) lk = Some fi -> is_completed fi = false ->
     lookup (st c') lk = Some (set_status error (set_error m (set_status converting fi)))) /\
  pass c' = None /\ isConverting (st c') = false.
Proof.
  destruct (convertAll_pass_entries conv c Hc Hidle) as (HP & HI & _ & HC & HL & _).
  cbv zeta. split; [|split; [|split; [|split; [exact HP|exact HI]]]].
  - intros j lj _ Hj. apply HL. eapply nth_error_In; exact Hj.
  - intros j lj fi _ Hj Hfi Hnc. apply nth_error_In in Hj. split.
    + rewrite HC. apply in_or_app; right. apply (in_map (fun l => (l, outputFormat (st c)))).
      apply filter_In; split; [exact Hj|]. rewrite Hfi, Hnc; reflexivity.
    + rewrite (HL lj Hj), Hfi. simpl. unfold item_outcome; rewrite Hnc; reflexivity.
  - intros fi Hfi Hnc. apply nth_error_In in Hk. rewrite (HL lk Hk), Hfi. simpl.
    unfold item_outcome; rewrite Hnc, Hfail; reflexivity.
Qed.

(** The converter of the witness: the second entry fails to load. *)
Lemma convertAll_failure_isolation_witness :
  reachable (run_events [SelectFiles [img "a.jpg"; img "b.jpg"; img "c.jpg"]] init) /\
  pass (convertAll_pass (fun l _ => if Nat.eqb l 1 then rejected "Failed to load image" else resolved blob1)
          (run_events [SelectFiles [img "a.jpg"; img "b.jpg"; img "c.jpg"]] init)) = None.
Proof.
  assert (H : reachable (run_events [SelectFiles [img "a.jpg"; img "b.jpg"; img "c.jpg"]] init))
    by exact (reachable_run_events _ init reach_init).
  split; [exact H|].
  exact (proj1 (proj2 (proj2 (proj2
    (convertAll_failure_isolation
       (fun l _ => if Nat.eqb l 1 then rejected "Failed to load image" else resolved blob1)
       _ 1 1 "Failed to load image" H eq_refl eq_refl eq_refl))))).
Defined.

(** C9: a Completed entry is skipped.  The loop's visit of a Completed entry
    changes nothing and calls no conversion (in the sequential reading and
    in the handler's step up to its next await); over a whole bulk pass the
    entry's object is unchanged and no conversion of it is issued. *)
Theorem convertAll_skips_completed (conv : Converter) (c : Conf) (l : nat) (fi : FileItem)
  (Hc : reachable c) (Hidle : pass c = None)
  (Hl : lookup (st c) l = Some fi) (Hdone : status fi = completed) :
  (forall snap fmt rest s cs, lookup s l = Some fi ->
     loop conv snap fmt (l :: rest) s cs = loop conv snap fmt rest s cs /\
     run_loop snap fmt (l :: rest) s = run_loop snap fmt rest s) /\
  lookup (st (convertAll_pass conv c)) l = Some fi /\
  exists new, calls (convertAll_pass conv c) = calls c ++ new /\ ~ In l (map fst new).
Proof.
  assert (Hcomp : is_completed fi = true) by (unfold is_completed; rewrite Hdone; reflexivity).
  destruct (convertAll_pass_entries conv c Hc Hidle) as (_ & _ & _ & HC & HL & HN).
  split; [|split].
  - intros snap fmt rest s cs Hs. simpl. rewrite Hs, Hcomp. split; reflexivity.
  - destruct (In_dec Nat.eq_dec l (selectedFiles (st c))) as [Hin|Hin].
    + rewrite (HL l Hin), Hl. simpl. unfold item_outcome; rewrite Hcomp; reflexivity.
    + rewrite (HN l Hin); exact Hl.
  - eexists; split; [exact HC|]. rewrite map_map; simpl. rewrite map_id.
    intros Hin. apply filter_In in Hin. destruct Hin as [_ Hin]. rewrite Hl, Hcomp in Hin.
    discriminate.
Qed.

Lemma convertAll_skips_completed_witness :
  let c := run_events [SelectFiles [img "a.jpg"]; ConvertAll; Settle (resolved blob1)] init in
  reachable c /\
  lookup (st (convertAll_pass (fun _ _ => rejected "Conversion failed") c)) 0 =
    Some (mkFileItem 0 (img "a.jpg") completed (Some blob1) None).
Proof.
  intro c. assert (H : reachable c) by exact (reachable_run_events _ init reach_init).
  split; [exact H|].
  exact (proj1 (proj2 (convertAll_skips_completed (fun _ _ => rejected "Conversion failed") c 0
    (mkFileItem 0 (img "a.jpg") completed (Some blob1) None) H eq_refl eq_refl eq_refl))).
Defined.

(** * Intake *)

Lemma collect_spec (files : list File) (n : nat) :
  map file (fst (collect files n)) = filter is_image files /\
  Forall (fun fi => status fi = pending /\ result fi = None /\ err fi = None) (fst (collect files n)) /\
  snd (collect files n) =
    map (fun f => Some (rejection_message f)) (filter (fun f => negb (is_image f)) files).
Proof.
  revert n; induction files as [|f fs IH]; intros n; simpl; [repeat split; constructor|].
  change (String.prefix "image/" (type f)) with (is_image f). destruct (is_image f) eqn:E; simpl.
  - destruct (IH (S n)) as (H1 & H2 & H3).
    destruct (collect fs (S n)) as [v e]; simpl in *.
    split; [now f_equal|split; [constructor; [repeat split|exact H2]|exact H3]].
  - destruct (IH n) as (H1 & H2 & H3).
    destruct (collect fs n) as [v e]; simpl in *.
    split; [exact H1|split; [exact H2|now f_equal]].
Qed.


(** * Invariants of the entries *)

Lemma collect_ids (files : list File) (n k : nat) (fi : FileItem) :
  nth_error (fst (collect files n)) k = Some fi -> id fi = n + k.
Proof.
  revert n k; induction files as [|f fs IH]; intros n k H; simpl in H.
  - destruct k; discriminate.
  - destruct (String.prefix "image/" (type f)).
    + destruct (collect fs (S n)) as [v e] eqn:E; simpl in H.
      destruct k as [|k]; simpl in H.
      * injection H as <-; simpl; lia.
      * specialize (IH (S n) k). rewrite E in IH. simpl in IH. rewrite (IH H); lia.
    + specialize (IH n k). destruct (collect fs n) as [v e]; simpl in *. exact (IH H).
Qed.

Lemma completed_dec (fi : FileItem) : status fi = completed \/ status fi <> completed.
Proof. destruct (status fi); [right|right|left|right]; congruence. Qed.

Lemma is_completed_false (fi : FileItem) : is_completed fi = false -> status fi <> completed.
Proof. unfold is_completed; destruct (status fi); simpl; congruence. Qed.

Lemma lookup_valid (s : St) (l : nat) : l < length (heap s) -> exists fi, lookup s l = Some fi.
Proof.
  intros H. unfold lookup. destruct (nth_error (heap s) l) eqn:E; [eauto|].
  apply nth_error_None in E; lia.
Qed.

Lemma lookup_begin_item (snap : list nat) (l m : nat) (s : St) :
  lookup (begin_item snap l s) m =
  if Nat.eqb l m then option_map (set_status converting) (lookup s m) else lookup s m.
Proof. apply nth_error_upd. Qed.

Lemma lookup_settle_item (snap : list nat) (l m : nat) (r : Outcome) (s : St) :
  lookup (settle_item snap l r s) m =
  if Nat.eqb l m then option_map (apply_outcome r) (lookup s m) else lookup s m.
Proof. apply nth_error_upd. Qed.

Lemma cur_valid (c : Conf) (p : Pass) :
  wf c -> pass c = Some p -> cur p < length (heap (st c)).
Proof.
  intros [_ Hw] Hp. rewrite Hp in Hw. destruct Hw as (_ & [_ Hf] & Hi).
  rewrite Forall_forall in Hf. apply Hf, Hi. left; reflexivity.
Qed.

Lemma entry_inv_select (fs : list File) (c : Conf) :
  wf c -> entry_inv c -> entry_inv (step (SelectFiles fs) c).
Proof.
  intros Hw (H1 & H2 & H3).
  split; [|split; [exact H2|]].
  - intros l fi Hl. simpl in Hl. unfold lookup, handleFilesSelect in Hl; simpl in Hl.
    destruct (Nat.lt_ge_cases l (length (heap (st c)))) as [Hlt|Hge].
    + rewrite nth_error_app1 in Hl by lia. exact (H1 l fi Hl).
    + rewrite nth_error_app2 in Hl by lia.
      pose proof (collect_ids fs _ _ _ Hl) as Hid.
      destruct (collect_spec fs (length (heap (st c)))) as (_ & HF & _).
      rewrite Forall_forall in HF. destruct (HF fi (nth_error_In _ _ Hl)) as (Hs & Hr & _).
      split; [lia|]. rewrite Hs, Hr. split; [split; [congruence|discriminate]|split; [discriminate|]].
      intros (p' & E & Hc). simpl in E. pose proof (cur_valid c p' Hw E). lia.
  - simpl. unfold handleFilesSelect_errors. apply last_last.
Qed.

Lemma entry_inv_same_heap (c c' : Conf) :
  heap (st c') = heap (st c) -> pass c' = pass c -> error_state (st c') = error_state (st c) ->
  entry_inv c -> entry_inv c'.
Proof.
  intros Hh Hp He (H1 & H2 & H3). split; [|split].
  - intros l fi Hl. unfold lookup in Hl; rewrite Hh in Hl. rewrite Hp. exact (H1 l fi Hl).
  - rewrite Hp; exact H2.
  - rewrite He; exact H3.
Qed.

Lemma entry_inv_convertAll (c : Conf) :
  wf c -> entry_inv c -> entry_inv (step ConvertAll c).
Proof.
  intros Hw Hi. simpl. destruct (isConverting (st c)) eqn:Ec.
  { unfold handleConvertAll; rewrite Ec; exact Hi. }
  destruct Hi as (H1 & H2 & H3).
  assert (Hidle : pass c = None).
  { destruct Hw as [_ Hw]. destruct (pass c); [destruct Hw; congruence|reflexivity]. }
  destruct (handleConvertAll_cases c Ec)
    as [(P1 & P2 & _)|(p' & pre & fi & P1 & P2 & P3 & _ & P5 & P6 & P7 & _)].
  - split; [|split].
    + intros l fi Hl. rewrite P2 in Hl. destruct (H1 l fi Hl) as (A & B & C).
      rewrite Hidle in C. rewrite P1. split; [exact A|split; [exact B|]].
      rewrite C. split; intros (q & Hq & _); discriminate.
    + rewrite P1; discriminate.
    + rewrite P2; reflexivity.
  - assert (Hfi : lookup (st c) (cur p') = Some fi) by exact P5.
    split; [|split].
    + intros l g Hl. rewrite P7, lookup_begin_item in Hl. rewrite P1.
      destruct (Nat.eqb_spec (cur p') l) as [<-|Hne].
      * change (lookup (setError None (setIsConverting true (st c))) (cur p')) with (lookup (st c) (cur p')) in Hl.
        rewrite Hfi in Hl. injection Hl as <-. destruct (H1 _ _ Hfi) as (A & B & _).
        apply is_completed_false in P6.
        assert (Hr : result fi = None) by (destruct (result fi); [exfalso; apply P6, B; discriminate|reflexivity]).
        simpl. split; [exact A|split; [rewrite Hr; split; [congruence|discriminate]|]].
        split; [intros _; exists p'; split; reflexivity|reflexivity].
      * change (lookup (setError None (setIsConverting true (st c))) l) with (lookup (st c) l) in Hl.
        destruct (H1 l g Hl) as (A & B & C). rewrite Hidle in C.
        split; [exact A|split; [exact B|]]. rewrite C.
        split; intros (q & Hq & Hc); [discriminate|]. injection Hq as <-. contradiction.
    + rewrite P1. intros q Hq; injection Hq as <-. exists pre. rewrite P3. exact P2.
    + rewrite P7; reflexivity.
Qed.

Lemma entry_inv_settle (r : Outcome) (c : Conf) :
  wf c -> entry_inv c -> entry_inv (step (Settle r) c).
Proof.
  intros Hw Hi. simpl. destruct (pass c) as [p|] eqn:Hp.
  2:{ unfold resume; rewrite Hp; exact Hi. }
  destruct Hi as (H1 & H2 & H3).
  destruct (H2 p Hp) as [pre Hsn].
  assert (Hnd : NoDup (snapshot p)) by (destruct Hw as [_ Hw]; rewrite Hp in Hw; apply Hw).
  rewrite Hsn in Hnd. pose proof (NoDup_remove_2 _ _ _ Hnd) as Hcur.
  destruct (lookup_valid (st c) (cur p) (cur_valid c p Hw Hp)) as [fi0 Hfi0].
  destruct (H1 _ _ Hfi0) as (A0 & B0 & C0).
  assert (Hconv0 : status fi0 = converting) by (apply C0; exists p; split; [exact Hp|reflexivity]).
  assert (Hr0 : result fi0 = None)
    by (destruct (result fi0) eqn:E; [|reflexivity]; exfalso;
        assert (status fi0 = completed) by (apply B0; discriminate); congruence).
  assert (Hnew : forall q, pass c = Some q -> q = p) by (intros q Hq; congruence).
  (* the settled entry *)
  assert (Hset : forall (P : option Pass), (forall q, P = Some q -> cur q <> cur p) ->
            id (apply_outcome r fi0) = cur p /\
            (result (apply_outcome r fi0) <> None <-> status (apply_outcome r fi0) = completed) /\
            (status (apply_outcome r fi0) = converting <-> exists q, P = Some q /\ cur q = cur p)).
  { intros P HP. destruct r as [b|m]; simpl; (split; [exact A0|split]).
    - split; [reflexivity|discriminate].
    - split; [discriminate|]. intros (q & Hq & Hc). exfalso; exact (HP q Hq Hc).
    - rewrite Hr0; split; [congruence|discriminate].
    - split; [discriminate|]. intros (q & Hq & Hc). exfalso; exact (HP q Hq Hc). }
  destruct (resume_cases r c p Hp)
    as [(P1 & P2 & _)|(p' & pre' & fi & P1 & P2 & P3 & _ & P5 & P6 & P7 & _)].
  - split; [|split].
    + intros l g Hl. rewrite P2 in Hl.
      change (lookup (setIsConverting false (settle_item (snapshot p) (cur p) r (st c))) l)
        with (lookup (settle_item (snapshot p) (cur p) r (st c)) l) in Hl.
      rewrite lookup_settle_item in Hl. rewrite P1.
      destruct (Nat.eqb_spec (cur p) l) as [<-|Hne].
      * rewrite Hfi0 in Hl; injection Hl as <-. apply Hset. intros q Hq; discriminate.
      * destruct (H1 l g Hl) as (A & B & C). split; [exact A|split; [exact B|]].
        split; [intros Hc; apply C in Hc; destruct Hc as (q & Hq & Hc); rewrite (Hnew q Hq) in Hc; contradiction|].
        intros (q & Hq & _); discriminate.
    + rewrite P1; discriminate.
    + rewrite P2; exact H3.
  - assert (Hne' : cur p' <> cur p).
    { intros E. apply Hcur. apply in_or_app; right. rewrite P2, <- E. apply in_or_app; right; left; reflexivity. }
    split; [|split].
    + intros l g Hl. rewrite P7, lookup_begin_item, lookup_settle_item in Hl. rewrite P1.
      destruct (Nat.eqb_spec (cur p') l) as [<-|Hne].
      * rewrite lookup_settle_item in P5.
        destruct (Nat.eqb_spec (cur p) (cur p')) as [E|_]; [congruence|].
        rewrite P5 in Hl. injection Hl as <-. destruct (H1 _ _ P5) as (A & B & C).
        apply is_completed_false in P6.
        assert (Hr : result fi = None) by (destruct (result fi); [exfalso; apply P6, B; discriminate|reflexivity]).
        simpl. split; [exact A|split; [rewrite Hr; split; [congruence|discriminate]|]].
        split; [intros _; exists p'; split; reflexivity|reflexivity].
      * destruct (Nat.eqb_spec (cur p) l) as [<-|Hne2].
        -- rewrite Hfi0 in Hl; injection Hl as <-. apply Hset.
           intros q Hq; injection Hq as <-; exact Hne'.
        -- destruct (H1 l g Hl) as (A & B & C). split; [exact A|split; [exact B|]].
           split.
           ++ intros Hc; apply C in Hc; destruct Hc as (q & Hq & Hc); rewrite (Hnew q Hq) in Hc; contradiction.
           ++ intros (q & Hq & Hc); injection Hq as <-; contradiction.
    + rewrite P1. intros q Hq; injection Hq as <-. exists (pre ++ cur p :: pre').
      rewrite P3, Hsn, P2, <- app_assoc. reflexivity.
    + rewrite P7; exact H3.
Qed.

Lemma entry_inv_step (e : Event) (c : Conf) : wf c -> entry_inv c -> entry_inv (step e c).
Proof.
  intros Hw Hi. destruct e as [fs|i| |f|r].
  - apply entry_inv_select; assumption.
  - apply (entry_inv_same_heap c); try reflexivity; exact Hi.
  - apply entry_inv_convertAll; assumption.
  - apply (entry_inv_same_heap c); try reflexivity; exact Hi.
  - apply entry_inv_settle; assumption.
Qed.

Lemma reachable_entry_inv (c : Conf) : reachable c -> entry_inv c.
Proof.
  induction 1 as [|e c Hc IH].
  - split; [|split; [intros p Hp; discriminate|reflexivity]].
    intros l fi Hl. unfold lookup in Hl; destruct l; discriminate.
  - apply entry_inv_step; [apply reachable_wf, Hc|exact IH].
Qed.

(** X1: at every reachable point an entry is Converting exactly when it is
    the entry the suspended bulk pass awaits, so at most one entry is
    Converting at a time. *)
Theorem converting_is_awaited (c : Conf) (Hc : reachable c) :
  (forall l fi, lookup (st c) l = Some fi ->
     (status fi = converting <-> exists p, pass c = Some p /\ cur p = l)) /\
  (forall l1 l2 fi1 fi2, lookup (st c) l1 = Some fi1 -> lookup (st c) l2 = Some fi2 ->
     status fi1 = converting -> status fi2 = converting -> l1 = l2).
Proof.
  destruct (reachable_entry_inv c Hc) as (H1 & _ & _). split.
  - intros l fi Hl. apply (H1 l fi Hl).
  - intros l1 l2 fi1 fi2 E1 E2 S1 S2.
    destruct (proj1 (proj2 (proj2 (H1 _ _ E1))) S1) as (p1 & P1 & C1).
    destruct (proj1 (proj2 (proj2 (H1 _ _ E2))) S2) as (p2 & P2 & C2).
    rewrite P1 in P2; injection P2 as <-. congruence.
Qed.

Lemma converting_is_awaited_witness :
  let c := run_events [SelectFiles [img "a.jpg"; img "b.jpg"]; ConvertAll] init in
  reachable c /\ (status (mkFileItem 0 (img "a.jpg") converting None None) = converting <->
                  exists p, pass c = Some p /\ cur p = 0).
Proof.
  intro c. assert (H : reachable c) by exact (reachable_run_events _ init reach_init).
  split; [exact H|].
  apply (proj1 (converting_is_awaited c H)). vm_compute; reflexivity.
Defined.

(** X2: at every reachable point an entry has a result exactly when it is
    Completed. *)
Theorem result_iff_completed (c : Conf) (Hc : reachable c) (l : nat) (fi : FileItem)
  (Hl : lookup (st c) l = Some fi) :
  result fi <> None <-> status fi = completed.
Proof. apply (proj1 (reachable_entry_inv c Hc) l fi Hl). Qed.

Lemma result_iff_completed_witness :
  let c := run_events retry_events init in
  reachable c /\ (result (mkFileItem 0 (img "a.jpg") completed (Some blob1) (Some "Failed to load image")) <> None <->
                  status (mkFileItem 0 (img "a.jpg") completed (Some blob1) (Some "Failed to load image")) = completed).
Proof.
  intro c. assert (H : reachable c) by exact (reachable_run_events _ init reach_init).
  split; [exact H|].
  apply (result_iff_completed c H 0). vm_compute; reflexivity.
Defined.

(** X3: entry ids are unique (an entry's id is its own address), so
    removeFile i drops exactly the entry with id i, keeps the other entries
    in order, leaves every entry object and flag alone, and does nothing
    when no entry of the queue has id i. *)
Theorem removeFile_exact (c : Conf) (Hc : reachable c) (i : nat) :
  let s' := removeFile i (st c) in
  selectedFiles s' = filter (fun l => negb (Nat.eqb l i)) (selectedFiles (st c)) /\
  heap s' = heap (st c) /\ isConverting s' = isConverting (st c) /\
  (~ In i (selectedFiles (st c)) -> selectedFiles s' = selectedFiles (st c)).
Proof.
  destruct (reachable_entry_inv c Hc) as (H1 & _ & _).
  destruct (reachable_wf c Hc) as [[_ Hv] _].
  assert (Hf : selectedFiles (removeFile i (st c)) = filter (fun l => negb (Nat.eqb l i)) (selectedFiles (st c))).
  { unfold removeFile; simpl. apply filter_ext_in. intros l Hl.
    rewrite Forall_forall in Hv. destruct (lookup_valid (st c) l (Hv l Hl)) as [fi E].
    rewrite E. rewrite (proj1 (H1 l fi E)). reflexivity. }
  cbv zeta. split; [exact Hf|split; [reflexivity|split; [reflexivity|]]].
  intros Hni. rewrite Hf. clear -Hni. induction (selectedFiles (st c)) as [|l ls IH]; simpl; [reflexivity|].
  destruct (Nat.eqb_spec l i) as [->|_]; [exfalso; apply Hni; left; reflexivity|].
  simpl; f_equal; apply IH; intros H; apply Hni; right; exact H.
Qed.

Lemma removeFile_exact_witness :
  let c := run_events [SelectFiles [img "a.jpg"; img "b.jpg"; img "c.jpg"]] init in
  reachable c /\ selectedFiles (removeFile 1 (st c)) = [0; 2].
Proof.
  intro c. assert (H : reachable c) by exact (reachable_run_events _ init reach_init).
  split; [exact H|]. rewrite (proj1 (removeFile_exact c H 1)). vm_compute; reflexivity.
Defined.

(** X5: intake, removal, format changes and conversions never leave a
    message in the page's error slot: in every reachable state it is empty
    (a rejection written during intake is cleared by the same handler, and
    conversion failures are stored on the entries only). *)
Theorem error_slot_always_empty (c : Conf) (Hc : reachable c) : error_state (st c) = None.
Proof. apply (reachable_entry_inv c Hc). Qed.

Lemma error_slot_always_empty_witness :
  error_state (st (run_events [SelectFiles [txt "notes.txt"]; SelectFiles [img "a.jpg"]; ConvertAll;
                                Settle (rejected "Failed to load image")] init)) = None.
Proof. apply error_slot_always_empty, reachable_run_events, reach_init. Defined.

(** X4: Completed is final.  In a reachable state, an entry that is
    Completed is left exactly as it is (status, result and error) by every
    event: intake, removal, format change, a new bulk pass and the settling
    of a conversion. *)
Theorem completed_entry_final (c : Conf) (e : Event) (l : nat) (fi : FileItem)
  (Hc : reachable c) (Hl : lookup (st c) l = Some fi) (Hs : status fi = completed) :
  lookup (st (step e c)) l = Some fi.
Proof.
  assert (Hlt : l < length (heap (st c))).
  { unfold lookup in Hl. apply nth_error_Some; congruence. }
  assert (Hic : is_completed fi = true) by (unfold is_completed; rewrite Hs; reflexivity).
  destruct (reachable_entry_inv c Hc) as (H1 & _ & _).
  destruct e as [fs|i| |f|r]; unfold step.
  - unfold lookup, handleFilesSelect; simpl. rewrite nth_error_app1 by lia. exact Hl.
  - exact Hl.
  - destruct (isConverting (st c)) eqn:Ei.
    + unfold handleConvertAll; rewrite Ei; exact Hl.
    + destruct (handleConvertAll_cases c Ei) as [(_ & H2 & _)|(p' & pre & fi' & _ & _ & _ & _ & H5 & H6 & H7 & _)].
      * rewrite H2. exact Hl.
      * rewrite H7, lookup_begin_item. destruct (Nat.eqb_spec (cur p') l) as [<-|_]; [|exact Hl].
        exfalso. change (lookup (st c) (cur p') = Some fi') in H5. congruence.
  - exact Hl.
  - destruct (pass c) as [p|] eqn:Hp; [|unfold resume; rewrite Hp; exact Hl].
    assert (Hne : cur p <> l).
    { intros <-. assert (status fi = converting) by (apply (H1 _ _ Hl); exists p; split; reflexivity).
      congruence. }
    assert (Hs1 : lookup (settle_item (snapshot p) (cur p) r (st c)) l = Some fi).
    { rewrite lookup_settle_item. apply Nat.eqb_neq in Hne. rewrite Hne. exact Hl. }
    destruct (resume_cases r c p Hp) as [(_ & H2 & _)|(p' & pre & fi' & _ & _ & _ & _ & H5 & H6 & H7 & _)].
    + rewrite H2. exact Hs1.
    + rewrite H7, lookup_begin_item. destruct (Nat.eqb_spec (cur p') l) as [<-|_]; [|exact Hs1].
      exfalso. congruence.
Qed.

Lemma completed_entry_final_witness :
  let c := run_events [SelectFiles [img "a.jpg"]; ConvertAll; Settle (resolved blob1);
                       SelectFiles [img "b.jpg"]; ConvertAll] init in
  reachable c /\ lookup (st (step (Settle (rejected "Failed to load image")) c)) 0 =
                 Some (mkFileItem 0 (img "a.jpg") completed (Some blob1) None).
Proof.
  intro c. assert (H : reachable c) by exact (reachable_run_events _ init reach_init).
  split; [exact H|]. apply completed_entry_final; [exact H|vm_compute; reflexivity|reflexivity].
Defined.

(** X6: with no pass running, "Convert All" on a queue that is empty or
    holds only Completed entries finishes at once: no conversion is
    started, no entry changes, the flag is back to false and the error slot
    is cleared. *)
Theorem convertAll_nothing_to_do (c : Conf) (Hi : isConverting (st c) = false)
  (Hall : forall l fi, In l (selectedFiles (st c)) -> lookup (st c) l = Some fi -> status fi = completed) :
  handleConvertAll c = mkConf (setError None (st c)) None (calls c).
Proof.
  destruct (handleConvertAll_cases c Hi) as [(H1 & H2 & H3)|(p' & pre & fi & _ & H2 & _ & _ & H5 & H6 & _)].
  - destruct (handleConvertAll c) as [s' p'' cs']; simpl in *; subst.
    destruct (st c) as [h sel f ic e]; simpl in *; subst; reflexivity.
  - exfalso. apply (is_completed_false fi H6). apply (Hall (cur p')).
    + rewrite H2. apply in_or_app; right; left; reflexivity.
    + exact H5.
Qed.

Lemma convertAll_nothing_to_do_witness :
  let c := run_events [SelectFiles [img "a.jpg"]; ConvertAll; Settle (resolved blob1)] init in
  isConverting (st c) = false /\
  handleConvertAll c = mkConf (setError None (st c)) None (calls c).
Proof.
  intro c. split; [vm_compute; reflexivity|].
  apply convertAll_nothing_to_do; [vm_compute; reflexivity|].
  intros l fi Hin Hl. vm_compute in Hin. destruct Hin as [<-|[]].
  vm_compute in Hl. injection Hl as <-. reflexivity.
Defined.

Lemma count_char_app (a : ascii) (s t : string) :
  count_char a (s ++ t)%string = count_char a s + count_char a t.
Proof. induction s as [|b s IH]; simpl; [reflexivity|]. rewrite IH; lia. Qed.

Lemma count_char_before_first_dot (s : string) : count_char "."%char (before_first_dot s) = 0.
Proof.
  induction s as [|b s IH]; simpl; [reflexivity|].
  destruct (Ascii.eqb b "."%char) eqn:E; simpl; [reflexivity|]. rewrite E, IH; reflexivity.
Qed.

(** X7: an output file name holds exactly one dot, the one before the
    extension; and two original names that agree up to their first dot get
    the same output name, whatever follows it ("a.jpg" and "a.png" both
    become "a.webp"). *)
Theorem output_name_one_dot (n1 n2 : string) (f : OutputFormat) :
  count_char "."%char (getOutputFileName n1 f) = 1 /\
  (before_first_dot n1 = before_first_dot n2 -> getOutputFileName n1 f = getOutputFileName n2 f).
Proof.
  assert (E : forall n, getOutputFileName n f = (before_first_dot n ++ "." ++ format_value f)%string).
  { intros n. unfold getOutputFileName. now rewrite index0_split_dot, toLowerCase_format_value. }
  split.
  - rewrite E, count_char_app, count_char_before_first_dot. simpl. destruct f; reflexivity.
  - intros H. rewrite !E, H. reflexivity.
Qed.

Lemma output_name_one_dot_witness :
  before_first_dot "a.jpg" = before_first_dot "a.png" /\
  getOutputFileName "a.jpg" webp = getOutputFileName "a.png" webp.
Proof.
  assert (H : before_first_dot "a.jpg" = before_first_dot "a.png") by reflexivity.
  split; [exact H|]. exact (proj2 (output_name_one_dot "a.jpg" "a.png" webp) H).
Defined.





(** X9: removing a toast by the id it was added under gives back the list
    from before (when the random id is not already in use), and removing a
    toast leaves the other toasts, and toasts added later, in their order. *)
Theorem toast_add_remove (t : ToastInput) (i j : string) (prev : list Toast)
  (Hfresh : ~ In i (map t_id prev)) :
  removeToast i (addToast t i prev) = prev /\
  (j <> i -> removeToast j (addToast t i prev) = addToast t i (removeToast j prev)).
Proof.
  unfold removeToast, addToast. split.
  - rewrite filter_app. simpl. rewrite String.eqb_refl. simpl. rewrite app_nil_r. clear j. induction prev as [|t0 ps IH]; simpl; [reflexivity|].
    simpl in Hfresh. destruct (String.eqb_spec (t_id t0) i) as [E|_].
    + exfalso; apply Hfresh; left; exact E.
    + simpl; f_equal; apply IH; intros H; apply Hfresh; right; exact H.
  - intros Hji. rewrite filter_app. simpl.
    destruct (String.eqb_spec i j) as [E|_]; [congruence|reflexivity].
Qed.

Lemma toast_add_remove_witness :
  let t0 := mkToast "k3j9" (Some "Saved") None (Some success) None in
  ~ In "x1" (map t_id [t0]) /\
  removeToast "x1" (addToast (mkToastInput (Some "Done") None (Some info) (Some 3000)) "x1" [t0]) = [t0].
Proof.
  intro t0. assert (H : ~ In "x1" (map t_id [t0])).
  { simpl. intros [E|[]]. discriminate E. }
  split; [exact H|]. exact (proj1 (toast_add_remove _ "x1" "x1" [t0] H)).
Defined.

Open Scope Z_scope.

Lemma keys_run_set_px (p : Player) (Hw : pwidth p = 20) (Hs : pspeed p = 8) :
  forall ks x bs, 0 <= x <= canvas_width - pwidth p ->
  let r := keys_run ks (set_px x p, bs) in
  (exists x', fst r = set_px x' p /\ 0 <= x' <= canvas_width - pwidth p) /\
  exists nw, snd r = (bs ++ nw)%list /\
    Forall (fun b => 8 <= bx b /\ bx b + bwidth b <= canvas_width - 8 /\
                     by_ b = py p /\ bactive b = true) nw.
Proof.
  intros ks; induction ks as [|[k sh] ks IH]; intros x bs Hx; cbv zeta; simpl.
  - split; [exists x; split; [reflexivity|exact Hx]|exists []; split; [symmetry; apply app_nil_r|constructor]].
  - unfold canvas_width in *; rewrite Hw in *.
    assert (Hd : 0 <= moveDistance sh (set_px x p)) by (unfold moveDistance; simpl; rewrite Hs; destruct sh; [apply Z.div_pos; lia|lia]).
    destruct k; simpl.
    + apply (IH (Z.max 0 (x - moveDistance sh (set_px x p))) bs). lia.
    + apply (IH (Z.min (220 - 20) (x + moveDistance sh (set_px x p))) bs). lia.
    + destruct (IH x (shoot (set_px x p) bs)) as [H1 (nw & H2 & H3)]; [lia|].
      split; [exact H1|]. exists (mkBullet (x + pwidth p / 2 - 2) (py p) 4 10 7 true :: nw).
      split; [rewrite H2; unfold shoot; simpl; rewrite <- app_assoc; reflexivity|].
      constructor; [|exact H3]. rewrite Hw; simpl; change (20 / 2) with 10; lia.
    + apply (IH x bs). lia.
Qed.

(** X10: with the shooter's player (width 20, speed 8) anywhere on the
    canvas, any sequence of key presses, Shift or not, only moves it
    horizontally and keeps it fully on the canvas (0 <= x <= 220 - 20), and
    only appends bullets, each one fired active from the player's row with
    its whole width at least 8 units inside both edges of the canvas. *)
Theorem keys_keep_player_on_canvas (p : Player) (bs : list Bullet) (ks : list (Key * bool))
  (Hw : pwidth p = 20) (Hs : pspeed p = 8) (Hx : 0 <= px p <= canvas_width - pwidth p) :
  let r := keys_run ks (p, bs) in
  (exists x', fst r = set_px x' p /\ 0 <= x' <= canvas_width - pwidth p) /\
  exists nw, snd r = (bs ++ nw)%list /\
    Forall (fun b => 8 <= bx b /\ bx b + bwidth b <= canvas_width - 8 /\
                     by_ b = py p /\ bactive b = true) nw.
Proof.
  assert (E : set_px (px p) p = p) by (destruct p; reflexivity).
  pose proof (keys_run_set_px p Hw Hs ks (px p) bs Hx) as H. rewrite E in H. exact H.
Qed.

Lemma keys_keep_player_on_canvas_witness :
  pwidth initial_player = 20 /\ pspeed initial_player = 8 /\
  0 <= px initial_player <= canvas_width - pwidth initial_player /\
  exists x', fst (keys_run [(ArrowRight, true); (ArrowRight, true); (Space, false)] (initial_player, []))
             = set_px x' initial_player /\ 0 <= x' <= canvas_width - pwidth initial_player.
Proof.
  assert (Hw : pwidth initial_player = 20) by reflexivity.
  assert (Hs : pspeed initial_player = 8) by reflexivity.
  assert (Hx : 0 <= px initial_player <= canvas_width - pwidth initial_player) by (vm_compute; split; discriminate).
  split; [exact Hw|split; [exact Hs|split; [exact Hx|]]].
  exact (proj1 (keys_keep_player_on_canvas initial_player [] _ Hw Hs Hx)).
Defined.

Close Scope Z_scope.

Open Scope Z_scope.

Section CollisionFacts.
Variable R : Type.
Variable add : R -> R -> R.
Variable ltb : R -> R -> bool.

Lemma count_active_cons (o : Obj R) (os : list (Obj R)) :
  count_active R (o :: os) = (if oactive R o then 1 else 0) + count_active R os.
Proof. unfold count_active; cbn [filter]. destruct (oactive R o); cbn [length]; lia. Qed.

Lemma count_active_on (o : Obj R) (os : list (Obj R)) :
  oactive R o = true -> count_active R (o :: os) = 1 + count_active R os.
Proof. intros H. rewrite count_active_cons, H. reflexivity. Qed.

Lemma count_active_off (o : Obj R) (os : list (Obj R)) :
  oactive R o = false -> count_active R (o :: os) = count_active R os.
Proof. intros H. rewrite count_active_cons, H. reflexivity. Qed.

Lemma count_active_deactivate (o : Obj R) (os : list (Obj R)) :
  count_active R (deactivate R o :: os) = count_active R os.
Proof. reflexivity. Qed.

Lemma count_active_nonneg (os : list (Obj R)) : 0 <= count_active R os.
Proof. unfold count_active; lia. Qed.

Lemma hit_enemies_spec (es : list (Obj R)) : forall b score,
  let '(b', es', sc) := hit_enemies R add ltb b es score in
  length es' = length es /\ 10 * count_active R es = 10 * count_active R es' + (sc - score) /\
  score <= sc.
Proof.
  induction es as [|e es IH]; intros b score; cbn [hit_enemies bullet_phase player_phase negb]; [repeat split; lia|].
  destruct (oactive R e) eqn:Ea; cbn [hit_enemies bullet_phase player_phase negb].
  - destruct (overlaps R add ltb b e).
    + pose proof (IH (deactivate R b) (score + 10)) as H.
      destruct (hit_enemies R add ltb (deactivate R b) es (score + 10)) as [[b' es''] sc].
      rewrite count_active_deactivate, (count_active_on _ _ Ea). cbn [length]; lia.
    + pose proof (IH b score) as H.
      destruct (hit_enemies R add ltb b es score) as [[b' es''] sc].
      rewrite (count_active_on e es Ea), (count_active_on e es'' Ea). cbn [length]; lia.
  - pose proof (IH b score) as H.
    destruct (hit_enemies R add ltb b es score) as [[b' es''] sc].
    rewrite (count_active_off e es Ea), (count_active_off e es'' Ea). cbn [length]; lia.
Qed.

Lemma bullet_phase_spec (bs : list (Obj R)) : forall es score,
  let '(bs', es', sc) := bullet_phase R add ltb bs es score in
  length bs' = length bs /\ length es' = length es /\
  10 * count_active R es = 10 * count_active R es' + (sc - score) /\ score <= sc.
Proof.
  induction bs as [|b bs IH]; intros es score; cbn [hit_enemies bullet_phase player_phase negb]; [repeat split; lia|].
  destruct (oactive R b); cbn [hit_enemies bullet_phase player_phase negb].
  - pose proof (hit_enemies_spec es b score) as H1.
    destruct (hit_enemies R add ltb b es score) as [[b' es1] sc1].
    pose proof (IH es1 sc1) as H2.
    destruct (bullet_phase R add ltb bs es1 sc1) as [[bs'' es2] sc2].
    cbn [length]; lia.
  - pose proof (IH es score) as H.
    destruct (bullet_phase R add ltb bs es score) as [[bs'' es'] sc].
    cbn [length]; lia.
Qed.

Lemma player_phase_spec (pl : Obj R) (es : list (Obj R)) : forall lives over,
  let '(es', l, o) := player_phase R add ltb pl es lives over in
  length es' = length es /\ count_active R es = count_active R es' + (lives - l) /\
  l <= lives /\ o = (over || ((l <? lives) && (l <=? 0)))%bool.
Proof.
  induction es as [|e es IH]; intros lives over; cbn [hit_enemies bullet_phase player_phase negb].
  - rewrite Z.ltb_irrefl, andb_false_l, orb_false_r. repeat split; lia.
  - destruct (oactive R e) eqn:Ea; cbn [hit_enemies bullet_phase player_phase negb].
    + destruct (overlaps R add ltb pl e).
      * pose proof (IH (lives - 1) (over || (lives - 1 <=? 0))%bool) as H.
        destruct (player_phase R add ltb pl es (lives - 1) (over || (lives - 1 <=? 0))%bool)
          as [[es'' l] o].
        destruct H as (H1 & H2 & H3 & H4).
        rewrite count_active_deactivate, (count_active_on _ _ Ea).
        split; [cbn [length]; lia|split; [lia|split; [lia|]]]. rewrite H4.
        destruct (Z.ltb_spec l lives); [|lia].
        destruct (Z.ltb_spec l (lives - 1)); destruct (Z.leb_spec l 0);
          destruct (Z.leb_spec (lives - 1) 0); destruct over; simpl; try reflexivity; lia.
      * pose proof (IH lives over) as H.
        destruct (player_phase R add ltb pl es lives over) as [[es'' l] o].
        rewrite (count_active_on e es Ea), (count_active_on e es'' Ea). destruct H as (H1 & H2 & H3 & H4); cbn [length]; repeat split; try lia; exact H4.
    + pose proof (IH lives over) as H.
      destruct (player_phase R add ltb pl es lives over) as [[es'' l] o].
      rewrite (count_active_off e es Ea), (count_active_off e es'' Ea). destruct H as (H1 & H2 & H3 & H4); cbn [length]; repeat split; try lia; exact H4.
Qed.

(** X11: every enemy that checkCollisions removes is paid for exactly
    once, either by 10 points (shot down) or by one life (it reached the
    player): 10 x (active enemies before) = 10 x (active enemies after)
    + points gained + 10 x lives lost.  The score never drops, lives never
    rise, no object is dropped from the arrays, and gameOver becomes set
    exactly when a life was lost this frame and the lives reached 0 or
    below (or it was set already). *)
Theorem checkCollisions_accounting (pl : Obj R) (bs es : list (Obj R)) (score lives : Z) (over : bool) :
  let '(bs', es', sc, l, o) := checkCollisions R add ltb pl bs es score lives over in
  length bs' = length bs /\ length es' = length es /\
  10 * count_active R es = 10 * count_active R es' + (sc - score) + 10 * (lives - l) /\
  score <= sc /\ l <= lives /\ o = (over || ((l <? lives) && (l <=? 0)))%bool.
Proof.
  unfold checkCollisions.
  pose proof (bullet_phase_spec bs es score) as H1.
  destruct (bullet_phase R add ltb bs es score) as [[bs1 es1] sc].
  pose proof (player_phase_spec pl es1 lives over) as H2.
  destruct (player_phase R add ltb pl es1 lives over) as [[es2 l] o].
  destruct H1 as (A1 & A2 & A3 & A4); destruct H2 as (B1 & B2 & B3 & B4).
  split; [exact A1|split; [lia|split; [lia|split; [exact A4|split; [exact B3|exact B4]]]]].
Qed.
End CollisionFacts.

Close Scope Z_scope.
